(** * rate-limit.js: a lazily reset window limiter for asynchronous calls

    Shallow embedding of [src/rate-limit.js].  The body of the async function
    [rateLimit] is written once, as a program over the effects it performs
    (reading the clock, reading and writing the two closure variables,
    logging, awaiting the timer, awaiting the wrapped call).  A cooperative
    scheduler over a logical clock runs such programs: a call runs
    synchronously up to its first [await], is parked in a pool, and is resumed
    by the scheduler when its timer is due or its promise has settled.

    Numbers are modelled as [Z]: the limit, the counter and the millisecond
    timestamps are integers in every use the repository makes of them.  A
    timer is due at the clock reading plus its delay, and the scheduler may
    run its callback then or later.  The wrapped operations act on the state
    of their caller; they do not call the limiter themselves. *)

From Stdlib Require Import ZArith Lia.
From stdpp Require Import base tactics option list strings pretty.

Local Open Scope Z_scope.

(** ** Programs over the effects of an async function *)

Section Limiter.

(** [U] is the state the wrapped operations act on (the [count] variable of the
    tests), [V] the values promises resolve with and functions are applied
    to, [E] the values they reject with. *)
Context {U V E : Type}.

(** A settled promise. *)
Inductive outcome (A : Type) : Type :=
| Resolved (a : A)
| Rejected (e : E).
Global Arguments Resolved {A} a.
Global Arguments Rejected {A} e.

(** What calling [promiseFn(...)] does: throw synchronously, or return
    something whose awaiting eventually yields an outcome (a promise that
    settles, or a plain value, which [await] treats as resolved), or return a
    promise that stays pending. *)
Inductive behaviour : Type :=
| Throws (e : E)
| Eventually (o : outcome V)
| Forever.

(** A JavaScript callable: it receives its argument list, may update the
    caller's state, and behaves as above. *)
Definition task : Type := list V -> U -> U * behaviour.

Inductive eff : Type -> Type :=
| Date_now : eff Z
| get_requestCount : eff Z
| set_requestCount (n : Z) : eff unit
| get_lastResetTime : eff Z
| set_lastResetTime (t : Z) : eff unit
| console_log (s : string) : eff unit
| await_timeout (time : Z) : eff unit
| await_call (f : task) (args : list V) : eff V.

Inductive prog (A : Type) : Type :=
| Ret (a : A)
| Vis {X : Type} (e : eff X) (k : X -> prog A).
Global Arguments Ret {A} a.
Global Arguments Vis {A X} e k.

Fixpoint bind {A B} (p : prog A) (g : A -> prog B) : prog B :=
  match p with
  | Ret a => g a
  | Vis e k => Vis e (fun x => bind (k x) g)
  end.

Definition trigger {X} (e : eff X) : prog X := Vis e Ret.

Global Instance prog_ret : MRet prog := fun _ a => Ret a.
Global Instance prog_bind : MBind prog := fun _ _ g p => bind p g.

(** ** The source *)

(** [Math.ceil(x / 1000)] on an integer [x]. *)
Definition ceil_div_1000 (x : Z) : Z := - ((- x) / 1000).

(** [function wait(time)]: a promise that a timer resolves after [time]
    milliseconds; nothing ever calls its [reject]. *)
Definition wait (time : Z) : prog unit := trigger (await_timeout time).

(** [async function rateLimit(promiseFn)], in the closure of
    [createRateLimit(limit, perMiliseconds)]. *)
Definition rateLimit (limit perMiliseconds : Z) (promiseFn : task) : prog V :=
  currentTime ← trigger Date_now;
  lastReset ← trigger get_lastResetTime;
  (if bool_decide (currentTime - lastReset >= perMiliseconds) then
     trigger (set_requestCount 0);;
     trigger (set_lastResetTime currentTime)
   else mret tt);;
  count ← trigger get_requestCount;
  (if bool_decide (count >= limit) then
     trigger (console_log ("Rate limit exceeded. Waiting for "
                           +:+ pretty (ceil_div_1000 perMiliseconds)
                           +:+ " seconds."));;
     wait perMiliseconds;;
     trigger (set_requestCount 0);;
     t ← trigger Date_now;
     trigger (set_lastResetTime t)
   else mret tt);;
  count ← trigger get_requestCount;
  trigger (set_requestCount (count + 1));;
  trigger (await_call promiseFn []).

(** ** The cooperative scheduler *)

(** A call parked in the pool. *)
Inductive thread (A : Type) : Type :=
| Sleeping (due : Z) (k : unit -> prog A)
| Awaiting (p : option (outcome V)) (k : V -> prog A)
| Settled (o : outcome A).
Global Arguments Sleeping {A} due k.
Global Arguments Awaiting {A} p k.
Global Arguments Settled {A} o.

(** What an observer of the wrapped operations sees: call [i] had its
    operation applied to [args] at time [t], and the operation did [b]. *)
Inductive event : Type :=
| Invoked (i : nat) (t : Z) (args : list V) (b : behaviour).

Record world : Type := World {
  limit : Z;
  perMiliseconds : Z;
  requestCount : Z;
  lastResetTime : Z;
  now : Z;
  user : U;
  pool : list (thread V);
  console : list string;
  trace : list event
}.

Definition with_requestCount (n : Z) (w : world) : world :=
  World (limit w) (perMiliseconds w) n (lastResetTime w) (now w) (user w)
        (pool w) (console w) (trace w).
Definition with_lastResetTime (t : Z) (w : world) : world :=
  World (limit w) (perMiliseconds w) (requestCount w) t (now w) (user w)
        (pool w) (console w) (trace w).
Definition with_now (t : Z) (w : world) : world :=
  World (limit w) (perMiliseconds w) (requestCount w) (lastResetTime w) t
        (user w) (pool w) (console w) (trace w).
Definition with_pool (l : list (thread V)) (w : world) : world :=
  World (limit w) (perMiliseconds w) (requestCount w) (lastResetTime w)
        (now w) (user w) l (console w) (trace w).
Definition logged (s : string) (w : world) : world :=
  World (limit w) (perMiliseconds w) (requestCount w) (lastResetTime w)
        (now w) (user w) (pool w) (s :: console w) (trace w).
Definition invoked (i : nat) (args : list V) (r : U * behaviour) (w : world)
  : world :=
  World (limit w) (perMiliseconds w) (requestCount w) (lastResetTime w)
        (now w) r.1 (pool w) (console w)
        (Invoked i (now w) args r.2 :: trace w).

(** Run call [i] until it finishes or reaches an [await] that suspends it. *)
Fixpoint exec {A} (i : nat) (p : prog A) (w : world) : world * thread A :=
  match p with
  | Ret a => (w, Settled (Resolved a))
  | Vis e k =>
      match e in eff X return (X -> prog A) -> world * thread A with
      | Date_now => fun k => exec i (k (now w)) w
      | get_requestCount => fun k => exec i (k (requestCount w)) w
      | set_requestCount n => fun k => exec i (k tt) (with_requestCount n w)
      | get_lastResetTime => fun k => exec i (k (lastResetTime w)) w
      | set_lastResetTime t => fun k => exec i (k tt) (with_lastResetTime t w)
      | console_log s => fun k => exec i (k tt) (logged s w)
      | await_timeout time => fun k => (w, Sleeping (now w + time) k)
      | await_call f args => fun k =>
          let r := f args (user w) in
          let w' := invoked i args r w in
          match r.2 with
          | Throws e => (w', Settled (Rejected e))
          | Eventually o => (w', Awaiting (Some o) k)
          | Forever => (w', Awaiting None k)
          end
      end k
  end.

(** What the environment can do: start a call, let time pass, run a due
    timer callback, deliver a settled promise. *)
Inductive label : Type :=
| Call (f : task)
| Tick (d : Z)
| Fire (i : nat)
| Settle (i : nat).

Definition park (i : nat) (r : world * thread V) : world :=
  with_pool (<[i := r.2]> (pool r.1)) r.1.

Definition step (w : world) (l : label) : option world :=
  match l with
  | Call f =>
      let i := length (pool w) in
      let r := exec i (rateLimit (limit w) (perMiliseconds w) f) w in
      Some (with_pool (pool r.1 ++ [r.2]) r.1)
  | Tick d =>
      if bool_decide (0 <= d) then Some (with_now (now w + d) w) else None
  | Fire i =>
      match pool w !! i with
      | Some (Sleeping due k) =>
          if bool_decide (due <= now w) then Some (park i (exec i (k tt) w))
          else None
      | _ => None
      end
  | Settle i =>
      match pool w !! i with
      | Some (Awaiting (Some (Resolved v)) k) => Some (park i (exec i (k v) w))
      | Some (Awaiting (Some (Rejected e)) k) =>
          Some (park i (w, Settled (Rejected e)))
      | _ => None
      end
  end.

Fixpoint run (ls : list label) (w : world) : option world :=
  match ls with
  | [] => Some w
  | l :: ls => w' ← step w l; run ls w'
  end.

(** [module.exports = function createRateLimit(limit = 15, perMiliseconds =
    60000)], called when the clock reads [t]: a missing argument takes its
    default, the counter starts at 0 and the window at [Date.now()]. *)
Definition createRateLimit (limit perMiliseconds : option Z) (t : Z) (u : U)
  : world :=
  World (default 15 limit) (default 60000 perMiliseconds) 0 t t u [] [] [].

(** ** The synchronous segments of [rateLimit]

    Between two suspension points a call runs without interruption; these
    are the state changes of each such run, as [exec] computes them
    ([exec_rateLimit] and [exec_resumed] below). *)

(** Lines 37-40: the window rollover. *)
Definition rolled (w : world) : world :=
  if bool_decide (now w - lastResetTime w >= perMiliseconds w)
  then with_lastResetTime (now w) (with_requestCount 0 w)
  else w.

(** Line 44: the message logged before waiting. *)
Definition message (perMiliseconds : Z) : string :=
  "Rate limit exceeded. Waiting for "
    +:+ pretty (ceil_div_1000 perMiliseconds) +:+ " seconds.".

(** Lines 47-54: what is left of [rateLimit] once [await wait(...)] is over. *)
Definition resumed (promiseFn : task) : unit -> prog V := fun _ =>
  (trigger (set_requestCount 0);;
   t ← trigger Date_now;
   trigger (set_lastResetTime t));;
  count ← trigger get_requestCount;
  trigger (set_requestCount (count + 1));;
  trigger (await_call promiseFn []).

(** The promise of [promiseFn()], as [return await] sees it. *)
Definition promised (b : behaviour) : thread V :=
  match b with
  | Throws e => Settled (Rejected e)
  | Eventually o => Awaiting (Some o) Ret
  | Forever => Awaiting None Ret
  end.

Definition outcome_of (b : behaviour) : option (outcome V) :=
  match b with
  | Throws e => Some (Rejected e)
  | Eventually o => Some o
  | Forever => None
  end.

(** Lines 52-54: the counter is incremented, then the operation is called
    with no argument. *)
Definition proceed (i : nat) (f : task) (w : world) : world :=
  invoked i [] (f [] (user w)) (with_requestCount (requestCount w + 1) w).

(** Lines 48-49. *)
Definition reset (w : world) : world :=
  with_lastResetTime (now w) (with_requestCount 0 w).

(** Lines 37-50 for a call that nothing interleaves with, over the logical
    clock: the rollover, then, over the limit, the message, the wait (the
    clock moves to the instant the timer is due, at once when the delay is
    negative) and the reset. *)
Definition entered (w : world) : world :=
  if bool_decide (requestCount (rolled w) >= limit w)
  then reset (with_now (now w + Z.max 0 (perMiliseconds w))
                       (logged (message (perMiliseconds w)) (rolled w)))
  else rolled w.

(** The calls a pool can hold: one parked at line 45, one parked at line
    54, or one that is over. *)
Definition thread_ok (th : thread V) : Prop :=
  match th with
  | Sleeping _ k => exists f, k = resumed f
  | Awaiting _ k => k = Ret
  | Settled _ => True
  end.

Definition wf (w : world) : Prop := Forall thread_ok (pool w).

Definition sleeping (th : thread V) : bool :=
  match th with Sleeping _ _ => true | _ => false end.

(** The transitions of [step] on such pools, segment by segment. *)
Inductive Step (w : world) : label -> world -> Prop :=
| Step_proceed f :
    requestCount (rolled w) < limit w ->
    Step w (Call f)
      (with_pool (pool w ++ [promised (f [] (user w)).2])
                 (proceed (length (pool w)) f (rolled w)))
| Step_sleep f :
    limit w <= requestCount (rolled w) ->
    Step w (Call f)
      (with_pool (pool w ++ [Sleeping (now w + perMiliseconds w) (resumed f)])
                 (logged (message (perMiliseconds w)) (rolled w)))
| Step_tick d :
    0 <= d ->
    Step w (Tick d) (with_now (now w + d) w)
| Step_wake i due f :
    pool w !! i = Some (Sleeping due (resumed f)) ->
    due <= now w ->
    Step w (Fire i)
      (with_pool (<[i := promised (f [] (user w)).2]> (pool w))
                 (proceed i f (reset w)))
| Step_settle i o :
    pool w !! i = Some (Awaiting (Some o) Ret) ->
    Step w (Settle i) (with_pool (<[i := Settled o]> (pool w)) w).

(** ** Callers *)

(** The outcome of call [i], once its promise has settled. *)
Definition result (i : nat) (w : world) : option (outcome V) :=
  match pool w !! i with
  | Some (Settled o) => Some o
  | _ => None
  end.

(** [await rateLimit(f)] by a caller that does nothing else meanwhile, over
    the logical clock: time passes only while the call sleeps, and the timer
    callback runs at the instant it is due. *)
Definition execute (f : task) (w : world) : option (world * outcome V) :=
  let i := length (pool w) in
  w1 ← step w (Call f);
  w2 ← match pool w1 !! i with
       | Some (Sleeping due _) =>
           run [Tick (Z.max 0 (due - now w1)); Fire i] w1
       | _ => Some w1
       end;
  w3 ← match pool w2 !! i with
       | Some (Awaiting _ _) => step w2 (Settle i)
       | _ => Some w2
       end;
  o ← result i w3;
  Some (w3, o).

(** What a caller that awaits each call observes of it: when it issued the
    call, when the call came back, and with what.  Over the logical clock the
    operations themselves take no time: the call comes back at the instant
    its operation was started, and [admitted - issued] is the time it spent
    inside the limiter. *)
Record report : Type := Report {
  issued : Z;
  admitted : Z;
  value : outcome V
}.

Definition waited (r : report) : Z := admitted r - issued r.

(** [for (...) { await rateLimit(f) }] over a list of operations, each
    preceded by a pause of the caller; the loop goes on whether the operation
    succeeded or failed. *)
Fixpoint sequence (reqs : list (Z * task)) (w : world)
  : option (world * list report) :=
  match reqs with
  | [] => Some (w, [])
  | (d, f) :: reqs =>
      w1 ← step w (Tick d);
      r ← execute f w1;
      rs ← sequence reqs r.1;
      Some (rs.1, Report (now w1) (now r.1) r.2 :: rs.2)
  end.

(** The same with no pause: calls issued back to back. *)
Definition sequential (fs : list task) (w : world)
  : option (world * list report) :=
  sequence ((fun f => (0, f)) <$> fs) w.

(** Calls fired without awaiting any of them. *)
Definition burst (fs : list task) : list label := Call <$> fs.

(** ** Observations *)

Definition call_of (ev : event) : nat :=
  match ev with Invoked i _ _ _ => i end.
Definition time_of (ev : event) : Z :=
  match ev with Invoked _ t _ _ => t end.
Definition args_of (ev : event) : list V :=
  match ev with Invoked _ _ args _ => args end.
Definition did (ev : event) : behaviour :=
  match ev with Invoked _ _ _ b => b end.

(** Times at which operations were started, most recent first. *)
Definition admissions (tr : list event) : list Z := time_of <$> tr.

(** How many times the operation of call [i] was started. *)
Definition invocations (i : nat) (tr : list event) : nat :=
  length (filter (fun ev => call_of ev = i) tr).

(** How many operations were started in the window [[t, t + width)]. *)
Definition started_within (t width : Z) (tr : list event) : nat :=
  length (filter (fun a => t <= a < t + width) (admissions tr)).

(** The ledger of the pool: a call has had its operation started once
    exactly when it is past line 45, never before, and always on no
    argument. *)
Definition ledger (w : world) : Prop :=
  (forall i, invocations i (trace w)
             = match pool w !! i with
               | Some th => if sleeping th then 0%nat else 1%nat
               | None => 0%nat
               end)
  /\ Forall (fun ev => args_of ev = []) (trace w).

(** The world a call awaited on its own leaves behind ([execute_closed]). *)
Definition served (f : task) (w : world) (o : outcome V) : world :=
  with_pool (pool w ++ [Settled o]) (proceed (length (pool w)) f (entered w)).



(** An operation whose promise settles, whatever it is applied to. *)
Definition settles (f : task) : Prop :=
  forall args u, (f args u).2 <> Forever.

(** Two requests of awaiting callers made after the same pause, whatever
    their operations are. *)
Definition same_timing (r1 r2 : Z * task) : Prop :=
  r1.1 = r2.1 /\ 0 <= r1.1 /\ settles r1.2 /\ settles r2.2.

(** When a call was issued and when it went through. *)
Definition timing (r : report) : Z * Z := (issued r, admitted r).

(** The time a caller spends pausing before its calls. *)
Definition pauses (reqs : list (Z * task)) : Z :=
  foldr (fun r acc => r.1 + acc) 0 reqs.


(** What a call past line 45 holds is what its operation did when it was
    invoked: the promise it awaits, or the outcome it has settled with. *)
Definition accounted (w : world) : Prop :=
  forall i th, pool w !! i = Some th ->
    match th with
    | Sleeping _ _ => True
    | Awaiting p _ =>
        exists ev, ev ∈ trace w /\ call_of ev = i /\ outcome_of (did ev) = p
    | Settled o =>
        exists ev, ev ∈ trace w /\ call_of ev = i
                   /\ outcome_of (did ev) = Some o
    end.

(** The latest time at which a timer of the pool is due (the clock reading
    when none is later). *)
Definition latest (w : world) : Z :=
  foldr (fun th acc => match th with
                       | Sleeping due _ => Z.max due acc
                       | _ => acc
                       end) (now w) (pool w).

(** The calls that are parked. *)
Definition asleep (w : world) : list nat :=
  filter (fun i => sleeping <$> pool w !! i = Some true)
         (seq 0 (length (pool w))).

(** Let the clock reach the last timer, then run every timer callback. *)
Definition drain (w : world) : list label :=
  Tick (latest w - now w) :: (Fire <$> asleep w).

(** What holds of the current window between the calls of a caller that
    awaits each of them, when the window is positive: the [requestCount]
    most recent admissions lie in the window, less than one window length
    after its start, and every earlier one lies before the window start. *)
Record windowed (w : world) : Prop := Windowed {
  windowed_width : 0 < perMiliseconds w;
  windowed_limit : 1 <= limit w;
  windowed_count : 0 <= requestCount w <= limit w;
  windowed_start : lastResetTime w <= now w;
  windowed_length :
    (Z.to_nat (requestCount w) <= length (admissions (trace w)))%nat;
  windowed_inside :
    Forall (fun a => lastResetTime w <= a <= now w
                     /\ a - lastResetTime w < perMiliseconds w)
           (take (Z.to_nat (requestCount w)) (admissions (trace w)));
  windowed_outside :
    Forall (fun a => a < lastResetTime w)
           (drop (Z.to_nat (requestCount w)) (admissions (trace w)))
}.

End Limiter.

(** ** The admission algorithm in the words of the specification *)

Module Spec.

(** The Limiter of section 3 of the specification. *)
Record limiter : Type := Limiter {
  limit : Z;
  windowDuration : Z;
  admittedCount : Z;
  windowStart : Z
}.

Record admission : Type := Admission {
  after : limiter;
  suspended_for : Z;
  invoked_at : Z
}.

Definition restart (t : Z) (l : limiter) : limiter :=
  Limiter (limit l) (windowDuration l) 0 t.

Definition increment (l : limiter) : limiter :=
  Limiter (limit l) (windowDuration l) (admittedCount l + 1) (windowStart l).

(** Section 4.1, steps 1 to 5 of [execute(task)], for a call that reads the
    time [now] at step 1 and that nothing interleaves with. *)
Definition execute (l : limiter) (now : Z) : admission :=
  (* 2. window rollover *)
  let l2 := if bool_decide (now - windowStart l >= windowDuration l)
            then restart now l else l in
  (* 3. over the limit: wait a full windowDuration, then restart the window
        at the time after the wait *)
  let '(l3, pause) :=
    if bool_decide (admittedCount l2 >= limit l2)
    then (restart (now + windowDuration l2) l2, windowDuration l2)
    else (l2, 0) in
  (* 4. increment; 5. invoke the task *)
  Admission (increment l3) pause (now + pause).

(** The wait the specification rules out: only what is left of the window. *)
Definition remaining (l : limiter) (now : Z) : Z :=
  windowStart l + windowDuration l - now.

End Spec.

(** The limiter of a world, as the specification names its fields. *)
Definition limiter_of {U V E} (w : @world U V E) : Spec.limiter :=
  Spec.Limiter (limit w) (perMiliseconds w) (requestCount w) (lastResetTime w).

(** ** The scenarios of the test suite *)

Module Scenarios.

(** [function promiseFnTest() { count++; return Promise.resolve(count); }] *)
Definition promiseFnTest : @task Z Z string :=
  fun _ count => (count + 1, Eventually (Resolved (count + 1))).

(** [function promiseFnTest() { return Promise.reject(new Error(...)); }] *)
Definition failing (msg : string) : @task Z Z string :=
  fun _ count => (count, Eventually (Rejected msg)).

Definition fresh (limit perMiliseconds : Z) : @world Z Z string :=
  createRateLimit (Some limit) (Some perMiliseconds) 0 0.

(** [createRateLimit(1, 5000)] after one awaited call at time 0. *)
Definition saturated : @world Z Z string :=
  World 1 5000 1 0 0 1 [Settled (Resolved 1)] []
        [Invoked 0 0 [] (Eventually (Resolved 1))].

End Scenarios.

(** * Facts *)

(** ** What each synchronous segment computes *)

Section Segments.
Context {U V E : Type}.
Implicit Types (w : @world U V E) (f : @task U V E).

Lemma exec_rateLimit i f w :
  exec i (rateLimit (limit w) (perMiliseconds w) f) w =
  if bool_decide (requestCount (rolled w) >= limit w)
  then (logged (message (perMiliseconds w)) (rolled w),
        Sleeping (now w + perMiliseconds w) (resumed f))
  else (proceed i f (rolled w), promised (f [] (user w)).2).
Proof.
  destruct w as [lim per c last t u p co tr]. unfold rolled. cbn.
  destruct (bool_decide (t - last >= per)); cbn;
    (case_bool_decide; cbn; [reflexivity|]);
    unfold proceed; cbn; destruct (f [] u).2 as [e|o|]; reflexivity.
Qed.

Lemma exec_resumed i f w :
  exec i (resumed f tt) w = (proceed i f (reset w), promised (f [] (user w)).2).
Proof.
  destruct w as [lim per c last t u p co tr]. unfold proceed, reset. cbn.
  destruct (f [] u).2 as [e|o|]; reflexivity.
Qed.

Lemma exec_wait i time w :
  exec i (wait time) w = (w, Sleeping (now w + time) Ret).
Proof. reflexivity. Qed.

End Segments.

(** ** The scheduler, transition by transition *)

Section Transitions.
Context {U V E : Type}.
Implicit Types (w : @world U V E) (f : @task U V E) (l : @label U V E).

Lemma rolled_frame w :
  limit (rolled w) = limit w /\ perMiliseconds (rolled w) = perMiliseconds w
  /\ now (rolled w) = now w /\ user (rolled w) = user w
  /\ pool (rolled w) = pool w /\ console (rolled w) = console w
  /\ trace (rolled w) = trace w.
Proof. unfold rolled. case_bool_decide; cbn; tauto. Qed.

Lemma step_Call w f :
  step w (Call f) = Some
    (if bool_decide (requestCount (rolled w) >= limit w)
     then with_pool (pool w ++ [Sleeping (now w + perMiliseconds w) (resumed f)])
                    (logged (message (perMiliseconds w)) (rolled w))
     else with_pool (pool w ++ [promised (f [] (user w)).2])
                    (proceed (length (pool w)) f (rolled w))).
Proof.
  cbn [step]. rewrite exec_rateLimit.
  destruct (rolled_frame w) as (_ & _ & _ & _ & Hp & _).
  case_bool_decide; cbn; rewrite Hp; reflexivity.
Qed.

Lemma step_Tick w d :
  0 <= d -> step w (Tick d) = Some (with_now (now w + d) w).
Proof. intros Hd. cbn. by rewrite bool_decide_true. Qed.

Lemma step_Fire w i due f :
  pool w !! i = Some (Sleeping due (resumed f)) -> due <= now w ->
  step w (Fire i) = Some
    (with_pool (<[i := promised (f [] (user w)).2]> (pool w))
               (proceed i f (reset w))).
Proof.
  intros Hi Hdue. cbn [step]. rewrite Hi, bool_decide_true by done.
  rewrite exec_resumed. reflexivity.
Qed.

Lemma step_Settle w i o :
  pool w !! i = Some (Awaiting (Some o) Ret) ->
  step w (Settle i) = Some (with_pool (<[i := Settled o]> (pool w)) w).
Proof. intros Hi. cbn [step]. rewrite Hi. destruct o; reflexivity. Qed.

Lemma Step_step w l w' : Step w l w' -> step w l = Some w'.
Proof.
  destruct 1.
  - rewrite step_Call, bool_decide_false by lia. reflexivity.
  - rewrite step_Call, bool_decide_true by lia. reflexivity.
  - cbn. rewrite bool_decide_true by done. reflexivity.
  - eapply step_Fire; eassumption.
  - apply step_Settle; assumption.
Qed.

Lemma step_Step w l w' : wf w -> step w l = Some w' -> Step w l w'.
Proof.
  intros Hwf Hs. destruct l as [f|d|i|i].
  - rewrite step_Call in Hs. injection Hs as <-.
    case_bool_decide; [apply Step_sleep|apply Step_proceed]; lia.
  - cbn in Hs. case_bool_decide; [|discriminate]. injection Hs as <-.
    by apply Step_tick.
  - destruct (pool w !! i) as [[due k|p k|o]|] eqn:Hi;
      try (cbn [step] in Hs; rewrite Hi in Hs; discriminate).
    destruct (Forall_lookup_1 _ _ _ _ Hwf Hi) as [f ->].
    destruct (decide (due <= now w)) as [Hdue|Hdue].
    + rewrite (step_Fire _ _ _ _ Hi Hdue) in Hs. injection Hs as <-.
      eapply Step_wake; eassumption.
    + cbn [step] in Hs. rewrite Hi, bool_decide_false in Hs by done.
      discriminate.
  - destruct (pool w !! i) as [[due k|[o|] k|o]|] eqn:Hi;
      try (cbn [step] in Hs; rewrite Hi in Hs; discriminate).
    pose proof (Forall_lookup_1 _ _ _ _ Hwf Hi) as Hk. cbn in Hk. subst k.
    rewrite (step_Settle _ _ _ Hi) in Hs. injection Hs as <-.
    by apply Step_settle.
Qed.

Lemma thread_ok_promised (b : @behaviour V E) : @thread_ok U V E (promised b).
Proof. destruct b; cbn; done. Qed.

Lemma Step_wf w l w' : wf w -> Step w l w' -> wf w'.
Proof.
  unfold wf. intros Hwf [f Hc|f Hc|d Hd|i due f Hi Hdue|i o Hi]; cbn.
  - destruct (rolled_frame w) as (_ & _ & _ & _ & Hp & _).
    apply Forall_app. split; [done|]. repeat constructor.
    apply thread_ok_promised.
  - apply Forall_app. split; [done|]. repeat constructor. by exists f.
  - done.
  - apply Forall_insert; [done|]. apply thread_ok_promised.
  - apply Forall_insert; done.
Qed.

Lemma step_wf w l w' : wf w -> step w l = Some w' -> wf w'.
Proof. intros Hwf Hs. eapply Step_wf; [done|]. by apply step_Step. Qed.

Lemma run_app ls1 ls2 w :
  run (ls1 ++ ls2) w = w' ← run ls1 w; run ls2 w'.
Proof.
  revert w. induction ls1 as [|l ls1 IH]; intros w; cbn; [done|].
  destruct (step w l); cbn; [apply IH|done].
Qed.

(** A property that every transition preserves holds along every run. *)
Lemma run_invariant (P : @world U V E -> Prop) :
  (forall w l w', wf w -> P w -> Step w l w' -> P w') ->
  forall ls w w', wf w -> P w -> run ls w = Some w' -> wf w' /\ P w'.
Proof.
  intros HP ls. induction ls as [|l ls IH]; intros w w' Hwf Hw Hrun; cbn in Hrun.
  - injection Hrun as <-. done.
  - destruct (step w l) as [w1|] eqn:Hs; [|discriminate]. cbn in Hrun.
    apply (IH w1); [by eapply step_wf| |done].
    eapply HP; [done..|]. by apply step_Step.
Qed.

Lemma createRateLimit_wf lim per t (u : U) :
  wf (@createRateLimit U V E lim per t u).
Proof. constructor. Qed.

End Transitions.

(** ** A call awaited on its own *)

Section Awaited.
Context {U V E : Type}.
Implicit Types (w : @world U V E) (f : @task U V E).

Lemma insert_last {A} (l : list A) (x y : A) :
  <[length l := x]> (l ++ [y]) = l ++ [x].
Proof. rewrite insert_app_r_alt, Nat.sub_diag by done. reflexivity. Qed.

Lemma lookup_last {A} (l : list A) (y : A) : (l ++ [y]) !! length l = Some y.
Proof. rewrite lookup_app_r, Nat.sub_diag by done. reflexivity. Qed.

Lemma settle_promised w i b o :
  outcome_of b = Some o ->
  pool w !! i = Some (promised b) ->
  match pool w !! i with
  | Some (Awaiting _ _) => step w (Settle i)
  | _ => Some w
  end = Some (with_pool (<[i := Settled o]> (pool w)) w).
Proof.
  intros Ho Hi. rewrite Hi. destruct b as [e|o'|]; cbn in Ho; simplify_eq.
  - cbn. f_equal. destruct w; unfold with_pool; cbn in *.
    rewrite list_insert_id by done. reflexivity.
  - apply step_Settle. exact Hi.
Qed.

Lemma awake_promised w i b (X : Z -> option (@world U V E)) :
  pool w !! i = Some (promised b) ->
  match pool w !! i with
  | Some (Sleeping due _) => X due
  | _ => Some w
  end = Some w.
Proof. intros ->. destruct b; reflexivity. Qed.

(** [execute] in closed form: the call enters, is admitted, and comes back
    with the outcome of its operation. *)
Lemma execute_closed f w o :
  outcome_of (f [] (user w)).2 = Some o ->
  execute f w =
  Some (with_pool (pool w ++ [Settled o])
                  (proceed (length (pool w)) f (entered w)), o).
Proof.
  intros Ho. unfold execute, entered. rewrite step_Call. cbn [mbind option_bind].
  destruct (rolled_frame w) as (Hl & Hper & Hn & Hu & Hp & Hc & Ht).
  case_bool_decide as Hsat.
  - cbn [pool with_pool]. rewrite lookup_last. cbn [run].
    rewrite step_Tick by lia. cbn [mbind option_bind].
    set (w1 := with_now _ _).
    assert (Hi : pool w1 !! length (pool w)
                 = Some (Sleeping (now w + perMiliseconds w) (resumed f))).
    { subst w1. cbn. apply lookup_last. }
    rewrite (step_Fire _ _ _ _ Hi) by (subst w1; cbn; rewrite Hn; lia).
    cbn [mbind option_bind].
    set (w2 := with_pool _ _).
    assert (Hi2 : pool w2 !! length (pool w) = Some (promised (f [] (user w1)).2)).
    { subst w2 w1. cbn. rewrite insert_last. apply lookup_last. }
    assert (Hu1 : user w1 = user w) by (subst w1; cbn; by rewrite Hu).
    rewrite Hu1 in Hi2.
    rewrite (settle_promised _ _ _ _ Ho Hi2). cbn [mbind option_bind].
    unfold result. cbn [pool with_pool].
    rewrite list_lookup_insert_eq
      by (subst w2 w1; cbn; rewrite length_insert, length_app; cbn; lia).
    cbn. f_equal. f_equal. subst w2 w1. unfold proceed, reset. cbn.
    rewrite !insert_last, ?Hn, ?Hper, ?Hl, ?Hu, ?Hc, ?Ht.
    replace (now w + perMiliseconds w - now w) with (perMiliseconds w) by lia.
    reflexivity.
  - set (w2 := with_pool _ _).
    assert (Hi2 : pool w2 !! length (pool w) = Some (promised (f [] (user w)).2)).
    { subst w2. cbn. apply lookup_last. }
    rewrite (awake_promised _ _ _ _ Hi2). cbn [mbind option_bind].
    rewrite (settle_promised _ _ _ _ Ho Hi2). cbn [mbind option_bind].
    unfold result. cbn [pool with_pool].
    rewrite list_lookup_insert_eq by (subst w2; cbn; rewrite length_app; cbn; lia).
    cbn. f_equal. f_equal. subst w2. unfold proceed. cbn.
    rewrite insert_last. reflexivity.
Qed.

(** A call whose operation never settles never comes back. *)
Lemma execute_forever f w :
  (f [] (user w)).2 = Forever -> execute f w = None.
Proof.
  intros Hb. unfold execute. rewrite step_Call. cbn [mbind option_bind].
  destruct (rolled_frame w) as (Hl & Hper & Hn & Hu & Hp & Hc & Ht).
  case_bool_decide as Hsat.
  - cbn [pool with_pool]. rewrite lookup_last. cbn [run].
    rewrite step_Tick by lia. cbn [mbind option_bind].
    set (w1 := with_now _ _).
    assert (Hi : pool w1 !! length (pool w)
                 = Some (Sleeping (now w + perMiliseconds w) (resumed f))).
    { subst w1. cbn. apply lookup_last. }
    rewrite (step_Fire _ _ _ _ Hi) by (subst w1; cbn; rewrite Hn; lia).
    cbn [mbind option_bind].
    set (w2 := with_pool _ _).
    assert (Hi2 : pool w2 !! length (pool w) = Some (Awaiting None Ret)).
    { subst w2 w1. cbn. rewrite insert_last, Hu, Hb. apply lookup_last. }
    rewrite Hi2. cbn [step]. rewrite Hi2. reflexivity.
  - set (w2 := with_pool _ _).
    assert (Hi2 : pool w2 !! length (pool w) = Some (Awaiting None Ret)).
    { subst w2. cbn. rewrite Hb. apply lookup_last. }
    rewrite Hi2. cbn [mbind option_bind]. rewrite Hi2.
    cbn [step]. rewrite Hi2. reflexivity.
Qed.


Lemma settles_outcome f args (u : U) :
  settles f -> exists o, outcome_of (f args u).2 = Some o.
Proof.
  intros Hf. specialize (Hf args u). destruct (f args u).2; cbn; eauto.
  done.
Qed.

End Awaited.

(** ** One call, step by step *)

Section OneCall.
Context {U V E : Type}.
Implicit Types (w : @world U V E) (f g : @task U V E).

Lemma entered_frame w :
  limit (entered w) = limit w
  /\ perMiliseconds (entered w) = perMiliseconds w
  /\ user (entered w) = user w /\ pool (entered w) = pool w
  /\ trace (entered w) = trace w.
Proof.
  unfold entered, rolled. repeat case_bool_decide; cbn; tauto.
Qed.



(** C4.  The promise of [execute(task)] resolves with exactly the value the
    task resolved with and rejects with exactly the value the task rejected
    with (or threw); a rejection of [execute] is always the task's own. *)
Theorem outcome_passthrough f w :
  (forall v, (f [] (user w)).2 = Eventually (Resolved v) ->
     exists w', execute f w = Some (w', Resolved v))
  /\ (forall e, (f [] (user w)).2 = Eventually (Rejected e) ->
        exists w', execute f w = Some (w', Rejected e))
  /\ (forall e, (f [] (user w)).2 = Throws e ->
        exists w', execute f w = Some (w', Rejected e))
  /\ (forall w' e, execute f w = Some (w', Rejected e) ->
        (f [] (user w)).2 = Eventually (Rejected e)
        \/ (f [] (user w)).2 = Throws e)
  /\ (forall w' v, execute f w = Some (w', Resolved v) ->
        (f [] (user w)).2 = Eventually (Resolved v)).
Proof.
  repeat split.
  - intros v Hb. eexists. apply execute_closed. by rewrite Hb.
  - intros e Hb. eexists. apply execute_closed. by rewrite Hb.
  - intros e Hb. eexists. apply execute_closed. by rewrite Hb.
  - intros w' e Hx. destruct (f [] (user w)).2 as [e'|[v|e']|] eqn:Hb.
    + rewrite (execute_closed f w (Rejected e')) in Hx by (by rewrite Hb).
      simplify_eq. by right.
    + rewrite (execute_closed f w (Resolved v)) in Hx by (by rewrite Hb).
      simplify_eq.
    + rewrite (execute_closed f w (Rejected e')) in Hx by (by rewrite Hb).
      simplify_eq. by left.
    + rewrite (execute_forever f w Hb) in Hx. discriminate.
  - intros w' v Hx. destruct (f [] (user w)).2 as [e'|[v'|e']|] eqn:Hb.
    + rewrite (execute_closed f w (Rejected e')) in Hx by (by rewrite Hb).
      simplify_eq.
    + rewrite (execute_closed f w (Resolved v')) in Hx by (by rewrite Hb).
      simplify_eq. reflexivity.
    + rewrite (execute_closed f w (Rejected e')) in Hx by (by rewrite Hb).
      simplify_eq.
    + rewrite (execute_forever f w Hb) in Hx. discriminate.
Qed.

(** C5.  The limiter's state after a call is the same whether the task
    succeeds or fails: the slot is taken by the increment that precedes the
    invocation, and nothing gives it back. *)
Theorem state_independent_of_outcome f g w :
  settles f -> settles g ->
  exists w1 o1 w2 o2,
    execute f w = Some (w1, o1)
    /\ execute g w = Some (w2, o2)
    /\ limiter_of w1 = limiter_of w2
    /\ now w1 = now w2
    /\ requestCount w1 = requestCount (entered w) + 1.
Proof.
  intros Hf Hg.
  destruct (settles_outcome f [] (user w) Hf) as [o1 Ho1].
  destruct (settles_outcome g [] (user w) Hg) as [o2 Ho2].
  eexists _, o1, _, o2.
  split; [by apply execute_closed|].
  split; [by apply execute_closed|].
  repeat split.
Qed.

End OneCall.


Lemma outcome_passthrough_witness :
  exists w',
    execute (Scenarios.failing "Simulated error") (Scenarios.fresh 5 5000)
    = Some (w', Rejected "Simulated error").
Proof.
  apply (proj1 (proj2 (outcome_passthrough
           (Scenarios.failing "Simulated error") (Scenarios.fresh 5 5000)))).
  reflexivity.
Defined.

Lemma state_independent_of_outcome_witness :
  exists w1 o1 w2 o2,
    execute Scenarios.promiseFnTest (Scenarios.fresh 5 5000) = Some (w1, o1)
    /\ execute (Scenarios.failing "Simulated error") (Scenarios.fresh 5 5000)
       = Some (w2, o2)
    /\ limiter_of w1 = limiter_of w2
    /\ now w1 = now w2
    /\ requestCount w1 = 1.
Proof.
  apply (state_independent_of_outcome Scenarios.promiseFnTest
           (Scenarios.failing "Simulated error") (Scenarios.fresh 5 5000));
    intros args u; cbn; discriminate.
Defined.

(** ** Every interleaving *)

Section Interleavings.
Context {U V E : Type}.
Implicit Types (w : @world U V E) (f : @task U V E) (l : @label U V E).
Implicit Types (ls : list (@label U V E)).

Lemma lookup_snoc_ne {A} (xs : list A) (x : A) (i : nat) :
  i <> length xs -> (xs ++ [x]) !! i = xs !! i.
Proof.
  intros Hi. destruct (decide (i < length xs)%nat) as [Hlt|Hge].
  - by apply lookup_app_l.
  - rewrite !lookup_ge_None_2; [done|lia|rewrite length_app; cbn; lia].
Qed.

Lemma sleeping_promised (b : @behaviour V E) :
  sleeping (@promised U V E b) = false.
Proof. by destruct b. Qed.


Lemma run_wf ls w w' : wf w -> run ls w = Some w' -> wf w'.
Proof.
  intros Hwf Hrun.
  by apply (run_invariant (fun _ => True)) in Hrun as [? _].
Qed.


(** C6.  For a limiter constructed with a limit of at least 1, the counter
    never exceeds the limit: not at any suspension point, not after any
    call, whatever the interleaving of the calls. *)
Theorem requestCount_le_limit lim per t (u : U) ls w :
  1 <= limit (@createRateLimit U V E lim per t u) ->
  run ls (createRateLimit lim per t u) = Some w ->
  0 <= requestCount w <= limit w.
Proof.
  intros Hlim Hrun.
  apply (run_invariant
           (fun w => 1 <= limit w /\ 0 <= requestCount w <= limit w))
    in Hrun; [tauto| |apply createRateLimit_wf|cbn in *; lia].
  clear. intros w l w' _ Hw HS.
  destruct HS; destruct w as [lim per c last t u p co tr];
    unfold rolled, proceed, reset in *; cbn in *;
    repeat (case_bool_decide; cbn in * ); lia.
Qed.

(** The transition relation is a function of the label. *)
Lemma Step_deterministic w l w1 w2 : Step w l w1 -> Step w l w2 -> w1 = w2.
Proof.
  intros H1 H2. apply Step_step in H1, H2. congruence.
Qed.

Local Arguments invocations : simpl never.

Lemma invocations_cons i (ev : @event V E) tr :
  invocations i (ev :: tr)
  = ((if decide (call_of ev = i) then 1 else 0) + invocations i tr)%nat.
Proof.
  unfold invocations. rewrite filter_cons. by case_decide.
Qed.

Lemma Step_ledger w l w' : ledger w -> Step w l w' -> ledger w'.
Proof.
  intros [Hn Ha] HS.
  destruct HS as [f Hc|f Hc|d Hd|j due f Hj Hdue|j o Hj].
  - destruct (rolled_frame w) as (_ & _ & _ & _ & _ & _ & Ht).
    split; cbn; rewrite Ht.
    + intros i. rewrite invocations_cons. cbn. rewrite Hn.
      case_decide as Hi.
      * subst i. rewrite lookup_last, sleeping_promised.
        by rewrite lookup_ge_None_2.
      * by rewrite lookup_snoc_ne.
    + by constructor.
  - destruct (rolled_frame w) as (_ & _ & _ & _ & _ & _ & Ht).
    split; cbn; rewrite Ht; [|done].
    intros i. rewrite Hn. destruct (decide (i = length (pool w))) as [->|Hi].
    + rewrite lookup_last. by rewrite lookup_ge_None_2.
    + by rewrite lookup_snoc_ne.
  - done.
  - assert (Hlt : (j < length (pool w))%nat) by by eapply lookup_lt_Some.
    split; cbn.
    + intros i. rewrite invocations_cons. cbn. rewrite Hn.
      case_decide as Hi.
      * subst i. rewrite list_lookup_insert_eq, sleeping_promised by done.
        by rewrite Hj.
      * by rewrite list_lookup_insert_ne.
    + by constructor.
  - assert (Hlt : (j < length (pool w))%nat) by by eapply lookup_lt_Some.
    split; cbn; [|done].
    intros i. rewrite Hn. destruct (decide (j = i)) as [->|Hi].
    + rewrite list_lookup_insert_eq by done. by rewrite Hj.
    + by rewrite list_lookup_insert_ne.
Qed.

Lemma run_ledger ls w w' :
  wf w -> ledger w -> run ls w = Some w' -> wf w' /\ ledger w'.
Proof.
  apply run_invariant. intros. by eapply Step_ledger.
Qed.



End Interleavings.

Lemma requestCount_le_limit_witness :
  exists w : @world Z Z string,
    run (burst (replicate 5 Scenarios.promiseFnTest)
         ++ [Tick 5000; Fire 3%nat; Fire 4%nat]) (Scenarios.fresh 3 5000)
    = Some w
    /\ 0 <= requestCount w <= limit w.
Proof.
  eexists. split; [vm_compute; reflexivity|].
  apply (requestCount_le_limit (Some 3) (Some 5000) 0 0
           (burst (replicate 5 Scenarios.promiseFnTest)
            ++ [Tick 5000; Fire 3%nat; Fire 4%nat]));
    [cbn; lia|vm_compute; reflexivity].
Defined.

(** ** Calls awaited one after the other *)

Section Sequences.
Context {U V E : Type}.
Implicit Types (w : @world U V E) (f : @task U V E).
Implicit Types (reqs : list (Z * @task U V E)) (fs : list (@task U V E)).

Local Arguments admissions : simpl never.

Lemma admissions_cons (ev : @event V E) tr :
  admissions (ev :: tr) = time_of ev :: admissions tr.
Proof. reflexivity. Qed.

Lemma sequence_cons d f reqs w o :
  0 <= d ->
  outcome_of (f [] (user w)).2 = Some o ->
  sequence ((d, f) :: reqs) w =
  rs ← sequence reqs (served f (with_now (now w + d) w) o);
  Some (rs.1, Report (now w + d) (now (entered (with_now (now w + d) w))) o
              :: rs.2).
Proof.
  intros Hd Ho. cbn [sequence]. rewrite step_Tick by done.
  cbn [mbind option_bind].
  rewrite (execute_closed f _ o) by done. reflexivity.
Qed.

Lemma with_now_same w : with_now (now w + 0) w = w.
Proof. destruct w. unfold with_now. cbn. by rewrite Z.add_0_r. Qed.


(** *** Counting admissions in a window *)




(** *** The invariant of an awaiting caller *)











(** *** Two runs *)

Lemma entered_two_runs w1 w2 :
  limiter_of w1 = limiter_of w2 -> now w1 = now w2 ->
  limiter_of (entered w1) = limiter_of (entered w2)
  /\ now (entered w1) = now (entered w2).
Proof.
  destruct w1 as [l1 p1 c1 s1 n1 u1 q1 co1 tr1].
  destruct w2 as [l2 p2 c2 s2 n2 u2 q2 co2 tr2].
  unfold limiter_of. cbn. intros [= -> -> -> ->] ->.
  unfold entered, rolled. cbn.
  repeat (case_bool_decide; cbn); try lia; done.
Qed.

(** The limiter and the admission times of an awaiting caller depend on the
    timing of its calls only, not on what the operations are or do. *)
Lemma sequence_two_runs reqs1 reqs2 :
  Forall2 same_timing reqs1 reqs2 ->
  forall w1 w2,
    limiter_of w1 = limiter_of w2 -> now w1 = now w2 ->
    admissions (trace w1) = admissions (trace w2) ->
    exists w1' rs1 w2' rs2,
      sequence reqs1 w1 = Some (w1', rs1)
      /\ sequence reqs2 w2 = Some (w2', rs2)
      /\ limiter_of w1' = limiter_of w2'
      /\ now w1' = now w2'
      /\ admissions (trace w1') = admissions (trace w2')
      /\ timing <$> rs1 = timing <$> rs2.
Proof.
  induction 1 as [|[d1 f1] [d2 f2] reqs1 reqs2 (Hd & Hpos & Hf1 & Hf2) _ IH];
    intros w1 w2 Hlim Hnow Htr.
  - exists w1, [], w2, []. done.
  - cbn in Hd, Hpos, Hf1, Hf2. subst d2.
    destruct (settles_outcome f1 [] (user w1) Hf1) as [o1 Ho1].
    destruct (settles_outcome f2 [] (user w2) Hf2) as [o2 Ho2].
    rewrite (sequence_cons d1 f1 reqs1 w1 o1 Hpos Ho1).
    rewrite (sequence_cons d1 f2 reqs2 w2 o2 Hpos Ho2).
    set (v1 := with_now (now w1 + d1) w1). set (v2 := with_now (now w2 + d1) w2).
    destruct (entered_two_runs v1 v2) as [Hel Hen];
      [exact Hlim|subst v1 v2; cbn; by rewrite Hnow|].
    destruct (entered_frame v1) as (_ & _ & _ & _ & Ht1).
    destruct (entered_frame v2) as (_ & _ & _ & _ & Ht2).
    destruct (IH (served f1 v1 o1) (served f2 v2 o2))
      as (w1' & rs1 & w2' & rs2 & -> & -> & Hl' & Hn' & Ht' & Hrs').
    + unfold limiter_of in *. cbn. by injection Hel as -> -> -> ->.
    + exact Hen.
    + unfold served. cbn. rewrite !admissions_cons. cbn.
      rewrite Ht1, Ht2, Hen. subst v1 v2. cbn. by rewrite Htr.
    + eexists _, _, _, _. split; [done|]. split; [done|].
      cbn [fst snd fmap list_fmap]. unfold timing at 1 3. cbn.
      rewrite Hen, Hrs'. subst v1 v2. cbn. by rewrite Hnow.
Qed.

(** C7.  Two limiters constructed with the same limit and window (given or
    defaulted) at the same clock reading evolve alike.  Driven by the same
    schedule, whatever it interleaves, they are in the same state after every
    prefix of it: same counters, same clock, same pool, same admission
    times.  Driven by awaiting callers with the same timing, they admit at
    the same times and end with the same counters even when the operations
    differ. *)
Theorem two_run_determinism lim1 per1 lim2 per2 t (u1 u2 : U) :
  default 15 lim1 = default 15 lim2 ->
  default 60000 per1 = default 60000 per2 ->
  (forall ls n,
     u1 = u2 ->
     run (take n ls) (@createRateLimit U V E lim1 per1 t u1)
     = run (take n ls) (@createRateLimit U V E lim2 per2 t u2))
  /\ (forall reqs1 reqs2,
        Forall2 same_timing reqs1 reqs2 ->
        exists w1 rs1 w2 rs2,
          sequence reqs1 (@createRateLimit U V E lim1 per1 t u1)
          = Some (w1, rs1)
          /\ sequence reqs2 (@createRateLimit U V E lim2 per2 t u2)
             = Some (w2, rs2)
          /\ limiter_of w1 = limiter_of w2
          /\ now w1 = now w2
          /\ admissions (trace w1) = admissions (trace w2)
          /\ timing <$> rs1 = timing <$> rs2).
Proof.
  intros Hlim Hper. split.
  - intros ls n ->. unfold createRateLimit. rewrite Hlim, Hper. reflexivity.
  - intros reqs1 reqs2 Hreqs. apply sequence_two_runs; [done| |done..].
    unfold limiter_of, createRateLimit. cbn. by rewrite Hlim, Hper.
Qed.

(** *** Calls issued back to back *)


Lemma sequential_cons f fs w o :
  outcome_of (f [] (user w)).2 = Some o ->
  sequential (f :: fs) w =
  rs ← sequential fs (served f w o);
  Some (rs.1, Report (now w) (now (entered w)) o :: rs.2).
Proof.
  intros Ho. unfold sequential. cbn [fmap list_fmap].
  rewrite (sequence_cons 0 f _ w o) by done.
  rewrite with_now_same, Z.add_0_r. reflexivity.
Qed.


Lemma rolled_count w :
  0 <= requestCount w ->
  0 <= requestCount (rolled w) <= requestCount w.
Proof. intros Hc. unfold rolled. case_bool_decide; cbn; lia. Qed.

Lemma rolled_same w :
  now w - lastResetTime w < perMiliseconds w -> rolled w = w.
Proof. intros H. unfold rolled. by rewrite bool_decide_false by lia. Qed.

Lemma entered_open w :
  requestCount (rolled w) < limit w -> entered w = rolled w.
Proof. intros H. unfold entered. by rewrite bool_decide_false by lia. Qed.

(** While the counter leaves room, calls issued back to back go through
    the limiter at the instant they are issued. *)
Lemma sequential_open fs w :
  Forall settles fs ->
  0 <= requestCount w ->
  requestCount w + Z.of_nat (length fs) <= limit w ->
  exists w' rs,
    sequential fs w = Some (w', rs)
    /\ now w' = now w
    /\ console w' = console w
    /\ limit w' = limit w
    /\ perMiliseconds w' = perMiliseconds w
    /\ user w' = foldl (fun u f => (f [] u).1) (user w) fs
    /\ length (trace w') = (length fs + length (trace w))%nat
    /\ length rs = length fs
    /\ Forall (fun r => issued r = now w /\ waited r = 0) rs
    /\ 0 <= requestCount w' <= requestCount w + Z.of_nat (length fs)
    /\ (now w - lastResetTime w < perMiliseconds w ->
        requestCount w' = requestCount w + Z.of_nat (length fs)
        /\ lastResetTime w' = lastResetTime w).
Proof.
  intros Hfs. revert w. induction Hfs as [|f fs Hf _ IH]; intros w Hc Hroom.
  - exists w, []. cbn. repeat split; try done; lia.
  - cbn [length] in Hroom.
    destruct (settles_outcome f [] (user w) Hf) as [o Ho].
    rewrite (sequential_cons f fs w o Ho).
    pose proof (rolled_count w Hc) as Hrc.
    destruct (rolled_frame w) as (Hl & Hper & Hn & Hu & Hp & Hco & Ht).
    assert (He : entered w = rolled w) by (apply entered_open; lia).
    destruct (IH (served f w o)) as
      (w' & rs & -> & Hnow & Hcon & Hlim & Hperiod & Huser & Htr & Hlen & Hrs
       & Hcount & Hexact).
    { unfold served. cbn. rewrite He. lia. }
    { unfold served. cbn. rewrite He, Hl. lia. }
    unfold served in *. cbn in Hnow, Hcon, Hlim, Hperiod, Huser, Htr, Hcount.
    cbn in Hexact, Hrs.
    rewrite He in *. rewrite ?Hn, ?Hco, ?Hl, ?Hper, ?Hu, ?Ht in *.
    eexists _, _. split; [done|]. cbn [fst snd foldl length].
    repeat split; try done; try lia.
    + constructor; [|done]. unfold waited. cbn. lia.
    + rewrite (rolled_same w) in Hexact by done. lia.
    + rewrite (rolled_same w) in Hexact by done. lia.
Qed.



End Sequences.

(** ** The theorems at work *)

(** Closed facts about concrete runs, by evaluation. *)
Ltac by_evaluation := repeat (apply conj); vm_compute; reflexivity.

Lemma saturated_is_reached :
  execute Scenarios.promiseFnTest (Scenarios.fresh 1 5000)
  = Some (Scenarios.saturated, Resolved 1).
Proof. vm_compute. reflexivity. Qed.



Lemma two_run_determinism_witness :
  run (take 2 [Call Scenarios.promiseFnTest; Tick 1; Call Scenarios.promiseFnTest])
      (createRateLimit None None 0 0)
  = run (take 2 [Call Scenarios.promiseFnTest; Tick 1; Call Scenarios.promiseFnTest])
      (createRateLimit (Some 15) (Some 60000) 0 0).
Proof.
  apply (two_run_determinism None None (Some 15) (Some 60000) 0 0 0);
    reflexivity.
Defined.




(** *** Where the specification says more than the code does *)



(** The bound of twice the limit is reached. *)
Lemma twice_limit_is_reached :
  exists w' rs,
    sequence [(9, Scenarios.promiseFnTest); (0, Scenarios.promiseFnTest);
              (1, Scenarios.promiseFnTest); (0, Scenarios.promiseFnTest)]
             (Scenarios.fresh 2 10) = Some (w', rs)
    /\ started_within 9 10 (trace w') = 4%nat.
Proof. eexists _, _. by_evaluation. Qed.

(** Calls that are not awaited are outside that bound: fired together, every
    call over the limit wakes at the same instant and is admitted there. *)
Lemma unawaited_calls_pile_up :
  exists w,
    run (burst (replicate 4 Scenarios.promiseFnTest)
         ++ [Tick 10; Fire 1%nat; Fire 2%nat; Fire 3%nat])
        (Scenarios.fresh 1 10) = Some w
    /\ started_within 10 10 (trace w) = 3%nat
    /\ requestCount w = 1.
Proof. eexists. by_evaluation. Qed.

(** The wait is a full window even when less of the window is left. *)
Lemma full_window_not_remaining :
  exists w w' o,
    run [Tick 4; Call Scenarios.promiseFnTest; Settle 0%nat]
        (Scenarios.fresh 1 10) = Some w
    /\ Spec.remaining (limiter_of w) (now w) = 6
    /\ execute Scenarios.promiseFnTest w = Some (w', o)
    /\ now w' - now w = 10.
Proof. eexists _, _, _. by_evaluation. Qed.

(** A limit of 0 is outside C6: the call that waited still counts. *)
Lemma limit_zero_is_exceeded :
  exists w,
    run [Call Scenarios.promiseFnTest; Tick 10; Fire 0%nat]
        (Scenarios.fresh 0 10) = Some w
    /\ requestCount w = 1 /\ limit w = 0.
Proof. eexists. by_evaluation. Qed.

(** *** The timings the test suite expects *)

(** "limit 1, per 5 seconds": five awaited calls take 20 s. *)
Lemma test_limit_1_per_5_seconds :
  exists w' rs,
    sequential (replicate 5 Scenarios.promiseFnTest) (Scenarios.fresh 1 5000)
    = Some (w', rs)
    /\ now w' = 20000 /\ user w' = 5.
Proof. eexists _, _. by_evaluation. Qed.

(** "limit 15, per 5 seconds; 20 requests": twenty awaited calls take 5 s. *)
Lemma test_limit_15_20_requests :
  exists w' rs,
    sequential (replicate 20 Scenarios.promiseFnTest) (Scenarios.fresh 15 5000)
    = Some (w', rs)
    /\ now w' = 5000 /\ user w' = 20.
Proof. eexists _, _. by_evaluation. Qed.

(** "handling burst requests exceeding the limit": of five calls fired
    together with a limit of 3, the last two run 5 s later. *)
Lemma test_burst_exceeding_limit :
  exists w,
    run (burst (replicate 5 Scenarios.promiseFnTest)
         ++ [Tick 5000; Fire 3%nat; Fire 4%nat]) (Scenarios.fresh 3 5000)
    = Some w
    /\ admissions (trace w) = [5000; 5000; 0; 0; 0] /\ user w = 5.
Proof. eexists. by_evaluation. Qed.

(** * Beyond the claims: how the limiter paces its callers *)

(** ** An awaited burst, call by call *)

Section Bursts.
Context {U V E : Type}.
Implicit Types (w : @world U V E) (f : @task U V E).
Implicit Types (fs : list (@task U V E)).









(** X4.  Once a window has elapsed since the window start, the capacity is
    whole again whatever the counter was: up to [limit] calls awaited back
    to back all go through at once, and the window restarts at the first of
    them. *)
Theorem capacity_restored_after_idle_window fs w :
  1 <= limit w ->
  0 < perMiliseconds w ->
  perMiliseconds w <= now w - lastResetTime w ->
  Forall settles fs ->
  Z.of_nat (length fs) <= limit w ->
  exists w' rs,
    sequential fs w = Some (w', rs)
    /\ now w' = now w
    /\ console w' = console w
    /\ Forall (fun r => issued r = now w /\ waited r = 0) rs
    /\ (fs <> [] ->
        requestCount w' = Z.of_nat (length fs) /\ lastResetTime w' = now w).
Proof.
  intros HL HW Hidle Hfs Hlen. destruct Hfs as [|f fs Hf Hfs].
  - exists w, []. done.
  - destruct (settles_outcome f [] (user w) Hf) as [o Ho].
    rewrite (sequential_cons f fs w o Ho).
    assert (Hroll : rolled w = reset w)
      by (unfold rolled; by rewrite bool_decide_true by lia).
    assert (He : entered w = reset w).
    { rewrite entered_open; [done|]. rewrite Hroll. cbn. lia. }
    cbn [length] in Hlen.
    destruct (sequential_open fs (served f w o) Hfs) as
      (w' & rs & -> & Hnow & Hcon & _ & _ & _ & _ & _ & Hrs & _ & Hexact).
    { unfold served. rewrite He. cbn. lia. }
    { unfold served. rewrite He. cbn. lia. }
    unfold served in Hnow, Hcon, Hrs, Hexact. rewrite He in *.
    cbn in Hnow, Hcon, Hrs, Hexact.
    destruct Hexact as [Hc Hlast]; [lia|].
    eexists _, _. split; [done|]. cbn [fst snd].
    split; [done|]. split; [done|]. split.
    + constructor; [|done]. unfold waited. cbn. lia.
    + intros _. cbn [length]. split; [lia|done].
Qed.


End Bursts.

(** ** The window, under every interleaving *)

Section Windows.
Context {U V E : Type}.
Implicit Types (w : @world U V E) (f : @task U V E) (l : @label U V E).
Implicit Types (ls : list (@label U V E)).

Lemma Step_window w l w' :
  Step w l w' ->
  lastResetTime w <= now w ->
  lastResetTime w <= lastResetTime w' /\ lastResetTime w' <= now w'
  /\ now w <= now w'.
Proof.
  intros HS Hw.
  destruct HS; destruct w as [lim per c last t u p co tr];
    unfold rolled, proceed, reset in *; cbn in *;
    repeat (case_bool_decide; cbn in * ); lia.
Qed.

Lemma run_window ls w w' :
  wf w -> lastResetTime w <= now w -> run ls w = Some w' ->
  lastResetTime w <= lastResetTime w' /\ lastResetTime w' <= now w'
  /\ now w <= now w'.
Proof.
  intros Hwf Hw Hrun.
  apply (run_invariant
           (fun v => lastResetTime w <= lastResetTime v
                     /\ lastResetTime v <= now v /\ now w <= now v))
    in Hrun; [tauto| |done|lia].
  clear. intros v l v' _ (H1 & H2 & H3) HS.
  destruct (Step_window v l v' HS H2). lia.
Qed.

(** X5.  Whatever the calls and their interleaving, the window start of a
    limiter never moves backward and never lies ahead of the clock. *)
Theorem window_start_monotone lim per t (u : U) ls1 ls2 w1 w2 :
  run ls1 (@createRateLimit U V E lim per t u) = Some w1 ->
  run ls2 w1 = Some w2 ->
  t <= lastResetTime w1
  /\ lastResetTime w1 <= lastResetTime w2
  /\ lastResetTime w2 <= now w2.
Proof.
  intros Hrun1 Hrun2.
  pose proof (@createRateLimit_wf U V E lim per t u) as Hwf0.
  destruct (run_window ls1 _ w1 Hwf0 ltac:(cbn; lia) Hrun1) as (H1 & H2 & _).
  destruct (run_window ls2 w1 w2 (run_wf _ _ _ Hwf0 Hrun1) H2 Hrun2)
    as (H3 & H4 & _).
  cbn in H1. lia.
Qed.

(** X8.  With a window of 0 ms or less (and a limit of at least 1) the limit
    is never enforced: under every interleaving no call is ever parked,
    nothing is logged, and the counter is 0 or 1. *)
Theorem nonpositive_window_never_waits lim per t (u : U) ls w :
  let w0 := @createRateLimit U V E lim per t u in
  1 <= limit w0 ->
  perMiliseconds w0 <= 0 ->
  run ls w0 = Some w ->
  console w = []
  /\ Forall (fun th => sleeping th = false) (pool w)
  /\ 0 <= requestCount w <= 1.
Proof.
  intros w0 HL HW Hrun.
  apply (run_invariant
           (fun v => 1 <= limit v /\ perMiliseconds v <= 0
                     /\ lastResetTime v <= now v
                     /\ console v = []
                     /\ Forall (fun th => sleeping th = false) (pool v)
                     /\ 0 <= requestCount v <= 1))
    in Hrun; [tauto| |apply createRateLimit_wf|].
  - clear. intros v l v' _ (HL & HW & Hlast & Hco & Hp & Hc) HS.
    destruct HS as [f Hroom|f Hsat|d Hd|i due f Hi Hdue|i o Hi].
    + assert (Hroll : rolled v = reset v)
        by (unfold rolled; by rewrite bool_decide_true by lia).
      rewrite Hroll. cbn. repeat split; try done; try lia.
      apply Forall_app. split; [done|]. repeat constructor.
      apply sleeping_promised.
    + exfalso. revert Hsat. unfold rolled.
      rewrite bool_decide_true by lia. cbn. lia.
    + cbn. repeat split; try done; lia.
    + exfalso. by apply (Forall_lookup_1 _ _ _ _ Hp) in Hi.
    + cbn. repeat split; try done; try lia. by apply Forall_insert.
  - subst w0. cbn in *. repeat split; try done; try lia.
Qed.

End Windows.

(** ** A caller that keeps to the rate *)

Section Rate.
Context {U V E : Type}.
Implicit Types (w : @world U V E) (f : @task U V E).
Implicit Types (reqs : list (Z * @task U V E)).

(** Between the calls of a caller that leaves at least [s] between them,
    with [limit * s] covering the window, the window has been open for at
    least [s] per admission but the last. *)
Lemma sequence_spaced reqs w s :
  1 <= limit w ->
  0 <= s ->
  perMiliseconds w <= limit w * s ->
  lastResetTime w <= now w ->
  1 <= requestCount w <= limit w ->
  (requestCount w - 1) * s <= now w - lastResetTime w ->
  Forall (fun r => s <= r.1 /\ settles r.2) reqs ->
  exists w' rs,
    sequence reqs w = Some (w', rs)
    /\ Forall (fun r => waited r = 0) rs
    /\ console w' = console w
    /\ now w' = now w + pauses reqs.
Proof.
  intros HL Hs HW Hlast Hc Hopen Hreqs. revert w HL HW Hlast Hc Hopen.
  induction Hreqs as [|[d f] reqs [Hd Hf] _ IH]; intros w HL HW Hlast Hc Hopen.
  - exists w, []. cbn. repeat split; try done. lia.
  - cbn in Hd, Hf. destruct (settles_outcome f [] (user w) Hf) as [o Ho].
    rewrite (sequence_cons d f reqs w o) by (done || lia).
    set (v := with_now (now w + d) w).
    assert (Hroom : requestCount (rolled v) < limit v).
    { subst v. unfold rolled. cbn. case_bool_decide; cbn; [lia|]. nia. }
    assert (He : entered v = rolled v) by by apply entered_open.
    destruct (IH (served f v o)) as (w' & rs & -> & Hrs & Hco & Hnow).
    + unfold served. rewrite He. subst v. unfold rolled. cbn.
      case_bool_decide; done.
    + unfold served. rewrite He. subst v. unfold rolled. cbn.
      case_bool_decide; cbn; done.
    + unfold served. rewrite He. subst v. unfold rolled. cbn.
      case_bool_decide; cbn; lia.
    + unfold served. rewrite He. subst v. unfold rolled in *. cbn in *.
      case_bool_decide; cbn in *; lia.
    + unfold served. rewrite He. subst v. unfold rolled in *. cbn in *.
      case_bool_decide; cbn in *; nia.
    + unfold served in Hco, Hnow. rewrite He in Hco, Hnow.
      destruct (rolled_frame v) as (_ & _ & Hn & _ & _ & Hcv & _).
      cbn in Hco, Hnow. rewrite Hcv in Hco. rewrite Hn in Hnow.
      eexists _, _. split; [done|]. cbn [fst snd pauses foldr].
      split; [|split; [exact Hco|subst v; cbn in *; unfold pauses in Hnow; lia]].
      constructor; [|done]. unfold waited. cbn. rewrite He, Hn.
      subst v. cbn. lia.
Qed.

(** X6.  A caller that awaits its calls and leaves at least [s] between
    them, where [limit] such pauses cover the window, is never delayed: no
    call waits, nothing is logged, and the time that passes is the caller's
    own pauses.  The first call may come at any time. *)
Theorem paced_caller_never_waits lim per t0 (u : U) d0 f0 reqs s :
  let w0 := @createRateLimit U V E lim per t0 u in
  1 <= limit w0 ->
  0 <= s ->
  perMiliseconds w0 <= limit w0 * s ->
  0 <= d0 -> settles f0 ->
  Forall (fun r => s <= r.1 /\ settles r.2) reqs ->
  exists w' rs,
    sequence ((d0, f0) :: reqs) w0 = Some (w', rs)
    /\ Forall (fun r => waited r = 0) rs
    /\ console w' = []
    /\ now w' = t0 + d0 + pauses reqs.
Proof.
  intros w0 HL Hs HW Hd0 Hf0 Hreqs.
  destruct (settles_outcome f0 [] (user w0) Hf0) as [o Ho].
  rewrite (sequence_cons d0 f0 reqs w0 o Hd0 Ho).
  set (v := with_now (now w0 + d0) w0).
  assert (Hroom : requestCount (rolled v) < limit v).
  { subst v. unfold rolled. cbn in *. case_bool_decide; cbn; lia. }
  assert (He : entered v = rolled v) by by apply entered_open.
  destruct (sequence_spaced reqs (served f0 v o) s)
    as (w' & rs & -> & Hrs & Hco & Hnow); try done;
    try (unfold served; rewrite He; subst v; unfold rolled; cbn in *;
         case_bool_decide; cbn in *; lia).
  unfold served in Hco, Hnow. rewrite He in Hco, Hnow.
  destruct (rolled_frame v) as (_ & _ & Hn & _ & _ & Hcv & _).
  cbn in Hco, Hnow. rewrite Hcv in Hco. rewrite Hn in Hnow.
  eexists _, _. split; [done|]. cbn [fst snd].
  split; [|split; [exact Hco|subst v; cbn in *; lia]].
  constructor; [|done]. unfold waited. cbn. rewrite He, Hn.
  subst v. cbn. lia.
Qed.

End Rate.

(** ** Calls fired together *)

Section Fired.
Context {U V E : Type}.
Implicit Types (w : @world U V E) (f : @task U V E).
Implicit Types (fs : list (@task U V E)).

Local Arguments admissions : simpl never.






End Fired.

(** ** The message *)


(** ** No call is lost *)

Section Liveness.
Context {U V E : Type}.
Implicit Types (w : @world U V E) (f : @task U V E) (l : @label U V E).
Implicit Types (ls : list (@label U V E)).

Local Arguments invocations : simpl never.

Lemma latest_bounds (ths : list (@thread U V E V)) (t : Z) :
  let m := foldr (fun th acc => match th with
                                | Sleeping due _ => Z.max due acc
                                | _ => acc
                                end) t ths in
  t <= m /\ forall i due k, ths !! i = Some (Sleeping due k) -> due <= m.
Proof.
  induction ths as [|th ths [IH1 IH2]]; cbn.
  - split; [lia|]. intros i due k Hi. by rewrite lookup_nil in Hi.
  - split; [destruct th; lia|].
    intros [|i] due k Hi; cbn in Hi.
    + injection Hi as ->. lia.
    + specialize (IH2 i due k Hi). destruct th; lia.
Qed.

Lemma elem_of_asleep w i :
  i ∈ asleep w <-> exists due k, pool w !! i = Some (Sleeping due k).
Proof.
  unfold asleep. rewrite list_elem_of_filter, elem_of_seq. split.
  - intros [Hs _]. destruct (pool w !! i) as [[due k|p k|o]|]; try done.
    by exists due, k.
  - intros (due & k & Hi). rewrite Hi. split; [done|].
    apply lookup_lt_Some in Hi. lia.
Qed.

(** Running due timers one after the other wakes exactly their calls. *)
Lemma fire_each (js : list nat) : forall w,
  wf w -> NoDup js ->
  (forall i, i ∈ js ->
     exists due k, pool w !! i = Some (Sleeping due k) /\ due <= now w) ->
  exists w',
    run (Fire <$> js) w = Some w'
    /\ (forall j, j ∉ js -> pool w' !! j = pool w !! j)
    /\ (forall i, i ∈ js ->
          exists th, pool w' !! i = Some th /\ sleeping th = false).
Proof.
  induction js as [|i js IH]; intros w Hwf Hnd Hjs.
  - exists w. split; [done|]. split; [done|]. intros i Hi. by apply elem_of_nil in Hi.
  - apply NoDup_cons in Hnd as [Hi Hnd].
    destruct (Hjs i) as (due & k & Hpi & Hdue); [left|].
    destruct (Forall_lookup_1 _ _ _ _ Hwf Hpi) as [f ->].
    assert (HS := Step_wake w i due f Hpi Hdue).
    assert (Hlt : (i < length (pool w))%nat) by by eapply lookup_lt_Some.
    cbn [fmap list_fmap run]. rewrite (Step_step _ _ _ HS).
    cbn [mbind option_bind]. set (w1 := with_pool _ _) in *.
    destruct (IH w1) as (w' & Hrun & Hother & Hawake);
      [by eapply Step_wf|done| |].
    { intros j Hj. destruct (Hjs j) as (due' & k' & Hpj & Hdue'); [by right|].
      exists due', k'. subst w1. cbn. rewrite list_lookup_insert_ne; [done|].
      intros ->. done. }
    exists w'. split; [done|]. split.
    + intros j Hj. apply not_elem_of_cons in Hj as [Hne Hj].
      rewrite (Hother j Hj). subst w1. cbn.
      by rewrite list_lookup_insert_ne.
    + intros j Hj. apply elem_of_cons in Hj as [->|Hj]; [|by apply Hawake].
      rewrite (Hother i Hi). subst w1. cbn.
      rewrite list_lookup_insert_eq by done. eexists. split; [done|].
      apply sleeping_promised.
Qed.

(** X10.  No call is lost: from any state a limiter can reach, letting the
    clock reach the last pending timer and running the timer callbacks
    leaves no call parked, and every call made so far has then had its
    operation started exactly once. *)
Theorem every_call_gets_to_run lim per t (u : U) ls w :
  run ls (@createRateLimit U V E lim per t u) = Some w ->
  exists w',
    run (drain w) w = Some w'
    /\ length (pool w') = length (pool w)
    /\ forall i, (i < length (pool w))%nat ->
         (exists th, pool w' !! i = Some th /\ sleeping th = false)
         /\ invocations i (trace w') = 1%nat.
Proof.
  intros Hrun.
  pose proof (@createRateLimit_wf U V E lim per t u) as Hwf0.
  assert (Hwf := run_wf _ _ _ Hwf0 Hrun).
  destruct (latest_bounds (pool w) (now w)) as [Hnow Hdue]. fold (latest w) in *.
  set (v := with_now (now w + (latest w - now w)) w).
  destruct (fire_each (asleep w) v) as (w' & Hfire & Hother & Hawake).
  { exact Hwf. }
  { apply NoDup_filter, NoDup_seq. }
  { intros i (due & k & Hi)%elem_of_asleep. exists due, k. split; [done|].
    subst v. cbn. specialize (Hdue i due k Hi). lia. }
  assert (Hdrain : run (drain w) w = Some w').
  { unfold drain. cbn [run]. rewrite step_Tick by lia. exact Hfire. }
  assert (Hall : run (ls ++ drain w) (createRateLimit lim per t u) = Some w')
    by (rewrite run_app, Hrun; exact Hdrain).
  destruct (run_ledger _ _ w' Hwf0 ltac:(split; [done|constructor]) Hall)
    as [_ [Hn _]].
  assert (Hawake' : forall i, (i < length (pool w))%nat ->
            exists th, pool w' !! i = Some th /\ sleeping th = false).
  { intros i Hi. destruct (decide (i ∈ asleep w)) as [Hin|Hout].
    - by apply Hawake.
    - rewrite (Hother i Hout). subst v. cbn.
      destruct (lookup_lt_is_Some_2 _ _ Hi) as [th Hth]. exists th.
      split; [done|]. destruct th as [due k| |]; try done.
      exfalso. apply Hout, elem_of_asleep. eauto. }
  exists w'. split; [done|]. split.
  - apply Nat.le_antisymm.
    + apply Nat.nlt_ge. intros Hlt.
      destruct (lookup_lt_is_Some_2 _ _ Hlt) as [th Hth].
      assert (Hno : length (pool w) ∉ asleep w).
      { intros (due & k & Hi)%elem_of_asleep.
        apply lookup_lt_Some in Hi. lia. }
      rewrite (Hother _ Hno) in Hth. subst v. cbn in Hth.
      apply lookup_lt_Some in Hth. lia.
    + destruct (pool w) as [|th0 ths] eqn:Hp; [cbn; lia|].
      destruct (Hawake' (length ths)) as (th & Hth & _); [cbn; lia|].
      apply lookup_lt_Some in Hth. cbn. lia.
  - intros i Hi. destruct (Hawake' i Hi) as (th & Hth & Hs).
    split; [by exists th|]. by rewrite Hn, Hth, Hs.
Qed.

End Liveness.

(** ** The current window of an awaiting caller *)

Section CurrentWindow.
Context {U V E : Type}.
Implicit Types (w : @world U V E) (f : @task U V E).
Implicit Types (reqs : list (Z * @task U V E)).

Local Arguments admissions : simpl never.

Lemma filter_all {A} (P : A -> Prop) `{!forall x, Decision (P x)} (xs : list A) :
  Forall P xs -> filter P xs = xs.
Proof.
  induction 1 as [|x xs Hx _ IH]; [done|].
  by rewrite filter_cons, decide_True, IH.
Qed.

Lemma filter_none {A} (P : A -> Prop) `{!forall x, Decision (P x)} (xs : list A) :
  Forall (fun x => ~ P x) xs -> filter P xs = [].
Proof.
  induction 1 as [|x xs Hx _ IH]; [done|].
  by rewrite filter_cons, decide_False.
Qed.

Lemma windowed_restart w t' co :
  windowed w -> now w <= t' -> lastResetTime w + perMiliseconds w <= t' ->
  windowed (World (limit w) (perMiliseconds w) 0 t' t' (user w) (pool w) co
                  (trace w)).
Proof.
  intros [HW HL Hc Hs Hlen Hin Hout] Hnow Hold.
  constructor; cbn; try lia; try done.
  rewrite <- (take_drop (Z.to_nat (requestCount w)) (admissions (trace w))).
  apply Forall_app. split.
  - eapply Forall_impl; [exact Hin|]. cbn. intros a Ha. lia.
  - eapply Forall_impl; [exact Hout|]. cbn. intros a Ha. lia.
Qed.

Lemma windowed_entered w :
  windowed w ->
  windowed (entered w)
  /\ requestCount (entered w) < limit (entered w)
  /\ now (entered w) - lastResetTime (entered w) < perMiliseconds (entered w).
Proof.
  intros Hw.
  assert (Hr : windowed (rolled w)
               /\ now (rolled w) - lastResetTime (rolled w)
                  < perMiliseconds (rolled w)).
  { unfold rolled. case_bool_decide.
    - split; [|cbn; destruct Hw; lia].
      apply (windowed_restart w (now w) (console w)); [done|lia|lia].
    - split; [done|lia]. }
  destruct Hr as [Hr Hopen].
  destruct (rolled_frame w) as (Hl & Hper & Hn & Hu & Hp & Hc & Ht).
  unfold entered. rewrite <- Hl. case_bool_decide as Hsat.
  - pose proof (windowed_restart (rolled w)
                  (now w + Z.max 0 (perMiliseconds w))
                  (message (perMiliseconds w) :: console (rolled w)) Hr) as H.
    unfold reset. cbn. split; [apply H; destruct Hr; lia|].
    destruct Hr. lia.
  - split; [done|]. split; [lia|done].
Qed.

Lemma windowed_proceed i f w :
  windowed w -> requestCount w < limit w ->
  now w - lastResetTime w < perMiliseconds w ->
  windowed (proceed i f w).
Proof.
  intros [HW HL Hc Hs Hlen Hin Hout] Hroom Hopen.
  assert (Hn : Z.to_nat (requestCount w + 1) = S (Z.to_nat (requestCount w)))
    by lia.
  constructor; cbn; try lia; try done;
    rewrite admissions_cons, Hn; cbn [time_of take drop length].
  - lia.
  - constructor; [lia|done].
  - done.
Qed.

Lemma windowed_tick w d :
  0 <= d -> windowed w -> windowed (with_now (now w + d) w).
Proof.
  intros Hd [HW HL Hc Hs Hlen Hin Hout]. constructor; cbn; try lia; try done.
  eapply Forall_impl; [exact Hin|]. cbn. intros a Ha. lia.
Qed.

Lemma windowed_served f w o : windowed w -> windowed (served f w o).
Proof.
  intros Hw. destruct (windowed_entered w Hw) as (He & Hroom & Hopen).
  pose proof (windowed_proceed (length (pool w)) f (entered w) He Hroom Hopen)
    as [HW HL Hc Hs Hlen Hin Hout].
  constructor; done.
Qed.

Lemma windowed_current w :
  windowed w ->
  filter (fun a => lastResetTime w <= a) (admissions (trace w))
  = take (Z.to_nat (requestCount w)) (admissions (trace w)).
Proof.
  intros [HW HL Hc Hs Hlen Hin Hout].
  rewrite <- (take_drop (Z.to_nat (requestCount w)) (admissions (trace w)))
    at 1.
  rewrite filter_app, filter_all, filter_none, app_nil_r; [done| |].
  - eapply Forall_impl; [exact Hout|]. cbn. intros a Ha. lia.
  - eapply Forall_impl; [exact Hin|]. cbn. intros a Ha. lia.
Qed.

(** X11.  For a caller that awaits its calls on a limiter with a limit of
    at least 1 and a positive window, the operations started since the
    current window began are exactly the [requestCount] most recent ones:
    no more than [limit] in any one window of the limiter. *)
Theorem current_window_holds_at_most_limit lim per t0 (u : U) reqs :
  let w0 := @createRateLimit U V E lim per t0 u in
  1 <= limit w0 ->
  0 < perMiliseconds w0 ->
  Forall (fun r => 0 <= r.1 /\ settles r.2) reqs ->
  exists w' rs,
    sequence reqs w0 = Some (w', rs)
    /\ Z.of_nat (length (filter (fun a => lastResetTime w' <= a)
                                (admissions (trace w'))))
       = requestCount w'
    /\ requestCount w' <= limit w0.
Proof.
  intros w0 HL HW Hreqs.
  assert (Hgen : forall w, windowed w ->
    exists w' rs, sequence reqs w = Some (w', rs)
                  /\ windowed w' /\ limit w' = limit w).
  { clear -Hreqs. induction Hreqs as [|[d f] reqs [Hd Hf] _ IH]; intros w Hw.
    - exists w, []. done.
    - destruct (settles_outcome f [] (user w) Hf) as [o Ho].
      cbn in Hd. rewrite (sequence_cons d f reqs w o Hd Ho).
      set (w1 := served f (with_now (now w + d) w) o).
      destruct (IH w1) as (w' & rs & -> & Hw' & Hl);
        [by apply windowed_served, windowed_tick|].
      eexists _, _. split; [done|]. split; [done|].
      destruct (entered_frame (with_now (now w + d) w)) as (Hl1 & _).
      cbn [fst]. rewrite Hl. subst w1. cbn. by rewrite Hl1. }
  destruct (Hgen w0) as (w' & rs & Hrun & Hw' & Hl).
  { constructor; cbn in *; try lia; unfold admissions; cbn; constructor. }
  exists w', rs. split; [done|].
  rewrite (windowed_current w' Hw'), length_take.
  destruct Hw'. lia.
Qed.

End CurrentWindow.

(** ** Outcomes, under every interleaving *)

Section Outcomes.
Context {U V E : Type}.
Implicit Types (w : @world U V E) (f : @task U V E) (l : @label U V E).
Implicit Types (ls : list (@label U V E)).

Lemma accounted_promised (b : @behaviour V E) (ev : @event V E)
    (tr : list (@event V E)) (i : nat) :
  ev ∈ tr -> call_of ev = i -> did ev = b ->
  match @promised U V E b with
  | Sleeping _ _ => True
  | Awaiting p _ =>
      exists ev, ev ∈ tr /\ call_of ev = i /\ outcome_of (did ev) = p
  | Settled o =>
      exists ev, ev ∈ tr /\ call_of ev = i /\ outcome_of (did ev) = Some o
  end.
Proof.
  intros Hev Hi Hb. destruct b as [e|o|]; cbn; exists ev; by rewrite Hb.
Qed.

Lemma accounted_grow (ev : @event V E) (tr : list (@event V E)) (i : nat)
    (th : @thread U V E V) :
  match th with
  | Sleeping _ _ => True
  | Awaiting p _ =>
      exists ev, ev ∈ tr /\ call_of ev = i /\ outcome_of (did ev) = p
  | Settled o =>
      exists ev, ev ∈ tr /\ call_of ev = i /\ outcome_of (did ev) = Some o
  end ->
  match th with
  | Sleeping _ _ => True
  | Awaiting p _ =>
      exists ev', ev' ∈ ev :: tr /\ call_of ev' = i
                  /\ outcome_of (did ev') = p
  | Settled o =>
      exists ev', ev' ∈ ev :: tr /\ call_of ev' = i
                  /\ outcome_of (did ev') = Some o
  end.
Proof.
  destruct th as [due k|p k|o]; [done|..];
    intros (ev' & Hin & Hc & Ho); exists ev'; (split; [by right|done]).
Qed.

Lemma Step_accounted w l w' : accounted w -> Step w l w' -> accounted w'.
Proof.
  intros Hw HS.
  destruct HS as [f Hroom|f Hsat|d Hd|j due f Hj Hdue|j o Hj]; intros i th Hi.
  - destruct (rolled_frame w) as (_ & _ & _ & Hu & _ & _ & Ht).
    cbn in Hi |- *. rewrite Ht, Hu.
    destruct (decide (i = length (pool w))) as [->|Hne].
    + rewrite lookup_last in Hi. injection Hi as <-.
      eapply accounted_promised; [left|done..].
    + rewrite lookup_snoc_ne in Hi by done.
      apply accounted_grow. by apply Hw.
  - destruct (rolled_frame w) as (_ & _ & _ & _ & _ & _ & Ht).
    cbn in Hi |- *. rewrite Ht.
    destruct (decide (i = length (pool w))) as [->|Hne].
    + rewrite lookup_last in Hi. by injection Hi as <-.
    + rewrite lookup_snoc_ne in Hi by done. by apply Hw.
  - cbn in Hi |- *. by apply Hw.
  - assert (Hlt : (j < length (pool w))%nat) by by eapply lookup_lt_Some.
    cbn in Hi |- *. destruct (decide (j = i)) as [->|Hne].
    + rewrite list_lookup_insert_eq in Hi by done. injection Hi as <-.
      eapply accounted_promised; [left|done..].
    + rewrite list_lookup_insert_ne in Hi by done.
      apply accounted_grow. by apply Hw.
  - assert (Hlt : (j < length (pool w))%nat) by by eapply lookup_lt_Some.
    cbn in Hi |- *. destruct (decide (j = i)) as [->|Hne].
    + rewrite list_lookup_insert_eq in Hi by done. injection Hi as <-.
      exact (Hw i _ Hj).
    + rewrite list_lookup_insert_ne in Hi by done. by apply Hw.
Qed.

(** X12.  Whichever calls run in between, a call settles with what its own
    operation did: in every run, the outcome of a settled call is the
    outcome of the one invocation of its operation, which was made on no
    argument. *)
Theorem settles_with_its_own_outcome lim per t (u : U) ls w i o :
  run ls (@createRateLimit U V E lim per t u) = Some w ->
  result i w = Some o ->
  invocations i (trace w) = 1%nat
  /\ exists ev, ev ∈ trace w /\ call_of ev = i /\ args_of ev = []
                /\ outcome_of (did ev) = Some o.
Proof.
  intros Hrun Hres.
  pose proof (@createRateLimit_wf U V E lim per t u) as Hwf0.
  destruct (run_ledger ls _ w Hwf0 ltac:(split; [done|constructor]) Hrun)
    as [_ [Hn Ha]].
  assert (Hacc : accounted w).
  { apply (run_invariant accounted) in Hrun; [tauto| |done|].
    - intros v l v' _ Hv HS. by eapply Step_accounted.
    - intros j th Hj. cbn in Hj. by rewrite lookup_nil in Hj. }
  unfold result in Hres.
  destruct (pool w !! i) as [[due k|p k|o']|] eqn:Hi; try discriminate.
  injection Hres as ->. split; [by rewrite Hn, Hi|].
  destruct (Hacc i _ Hi) as (ev & Hev & Hc & Ho). exists ev.
  split; [done|]. split; [done|]. split; [|done].
  by eapply Forall_forall in Ha.
Qed.

End Outcomes.

(** ** The pacing theorems at work *)

Lemma settles_with_its_own_outcome_witness :
  exists w : @world Z Z string,
    run [Call (Scenarios.failing "error"); Call Scenarios.promiseFnTest;
         Settle 1%nat; Settle 0%nat] (Scenarios.fresh 5 5000) = Some w
    /\ result 0%nat w = Some (Rejected "error")
    /\ invocations 0%nat (trace w) = 1%nat
    /\ exists ev, ev ∈ trace w /\ call_of ev = 0%nat /\ args_of ev = []
                  /\ outcome_of (did ev) = Some (Rejected "error").
Proof.
  eexists. split; [vm_compute; reflexivity|].
  split; [vm_compute; reflexivity|].
  apply (settles_with_its_own_outcome (Some 5) (Some 5000) 0 0
           [Call (Scenarios.failing "error"); Call Scenarios.promiseFnTest;
            Settle 1%nat; Settle 0%nat]);
    vm_compute; reflexivity.
Defined.




Lemma capacity_restored_after_idle_window_witness :
  exists w' rs,
    sequential [Scenarios.promiseFnTest] (with_now 5000 Scenarios.saturated)
    = Some (w', rs)
    /\ now w' = 5000
    /\ console w' = []
    /\ Forall (fun r => issued r = 5000 /\ waited r = 0) rs
    /\ ([Scenarios.promiseFnTest] <> [] ->
        requestCount w' = 1 /\ lastResetTime w' = 5000).
Proof.
  apply (capacity_restored_after_idle_window [Scenarios.promiseFnTest]
           (with_now 5000 Scenarios.saturated)).
  - cbn. lia.
  - cbn. lia.
  - cbn. lia.
  - repeat constructor; intros args u; discriminate.
  - cbn. lia.
Defined.

Lemma window_start_monotone_witness :
  exists w1 w2 : @world Z Z string,
    run [Call Scenarios.promiseFnTest] (Scenarios.fresh 1 5) = Some w1
    /\ run [Tick 5; Call Scenarios.promiseFnTest] w1 = Some w2
    /\ 0 <= lastResetTime w1
    /\ lastResetTime w1 <= lastResetTime w2
    /\ lastResetTime w2 <= now w2.
Proof.
  eexists _, _. split; [vm_compute; reflexivity|].
  split; [vm_compute; reflexivity|].
  apply (window_start_monotone (Some 1) (Some 5) 0 0
           [Call Scenarios.promiseFnTest]
           [Tick 5; Call Scenarios.promiseFnTest]);
    vm_compute; reflexivity.
Defined.

Lemma paced_caller_never_waits_witness :
  exists w' rs,
    sequence ((0, Scenarios.promiseFnTest)
              :: [(5, Scenarios.promiseFnTest); (5, Scenarios.promiseFnTest);
                  (7, Scenarios.promiseFnTest)])
             (Scenarios.fresh 2 10) = Some (w', rs)
    /\ Forall (fun r => waited r = 0) rs
    /\ console w' = []
    /\ now w' = 0 + 0 + 17.
Proof.
  apply (paced_caller_never_waits (Some 2) (Some 10) 0 0 0
           Scenarios.promiseFnTest
           [(5, Scenarios.promiseFnTest); (5, Scenarios.promiseFnTest);
            (7, Scenarios.promiseFnTest)] 5).
  - cbn. lia.
  - lia.
  - cbn. lia.
  - lia.
  - intros args u; discriminate.
  - repeat constructor; cbn; try lia; intros args u; discriminate.
Defined.


Lemma nonpositive_window_never_waits_witness :
  exists w : @world Z Z string,
    run [Call Scenarios.promiseFnTest; Call Scenarios.promiseFnTest]
        (Scenarios.fresh 1 0) = Some w
    /\ console w = []
    /\ Forall (fun th => sleeping th = false) (pool w)
    /\ 0 <= requestCount w <= 1.
Proof.
  eexists. split; [vm_compute; reflexivity|].
  apply (nonpositive_window_never_waits (Some 1) (Some 0) 0 0
           [Call Scenarios.promiseFnTest; Call Scenarios.promiseFnTest]).
  - cbn. lia.
  - cbn. lia.
  - vm_compute. reflexivity.
Defined.

Lemma every_call_gets_to_run_witness :
  exists w : @world Z Z string,
    run (burst [Scenarios.promiseFnTest; Scenarios.promiseFnTest])
        (Scenarios.fresh 1 10) = Some w
    /\ exists w',
         run (drain w) w = Some w'
         /\ length (pool w') = length (pool w)
         /\ forall i, (i < length (pool w))%nat ->
              (exists th, pool w' !! i = Some th /\ sleeping th = false)
              /\ invocations i (trace w') = 1%nat.
Proof.
  eexists. split; [vm_compute; reflexivity|].
  apply (every_call_gets_to_run (Some 1) (Some 10) 0 0
           (burst [Scenarios.promiseFnTest; Scenarios.promiseFnTest])).
  vm_compute. reflexivity.
Defined.

Lemma current_window_holds_at_most_limit_witness :
  exists w' rs,
    sequence [(9, Scenarios.promiseFnTest); (1, Scenarios.promiseFnTest)]
             (Scenarios.fresh 1 10) = Some (w', rs)
    /\ Z.of_nat (length (filter (fun a => lastResetTime w' <= a)
                                (admissions (trace w'))))
       = requestCount w'
    /\ requestCount w' <= 1.
Proof.
  apply (current_window_holds_at_most_limit (Some 1) (Some 10) 0 0
           [(9, Scenarios.promiseFnTest); (1, Scenarios.promiseFnTest)]).
  - cbn. lia.
  - cbn. lia.
  - repeat constructor; cbn; try lia; intros args u; discriminate.
Defined.
